(** * Particle wave: the kinematic model of [src/index.ts]

    The program animates [NUM_PARTICLES] spheres.  [createParticle] samples a
    particle's motion parameters once, [moveParticle] maps a particle and a
    timestamp to a position and writes it into the particle's mesh.

    Numbers.  A JavaScript [number] is an IEEE-754 double.  This development
    computes in exact real arithmetic: a [number] is either a real or [NaN].
    Rounding, overflow to an infinity and the sign of zero are not
    represented; [NaN] is, because [%] by zero produces it. *)

From Stdlib Require Import Reals Lra Psatz ZArith.
From stdpp Require Import base list.

Local Open Scope R_scope.

(** ** JavaScript numbers *)

Module JS.

Inductive number : Type :=
| NaN
| Fin (r : R).

Definition lift1 (f : R -> R) (a : number) : number :=
  match a with
  | Fin r => Fin (f r)
  | NaN => NaN
  end.

Definition lift2 (f : R -> R -> R) (a b : number) : number :=
  match a, b with
  | Fin r, Fin s => Fin (f r s)
  | _, _ => NaN
  end.

Definition add : number -> number -> number := lift2 Rplus.
Definition sub : number -> number -> number := lift2 Rminus.
Definition mul : number -> number -> number := lift2 Rmult.
Definition neg : number -> number := lift1 Ropp.

(** Integer part toward zero, the quotient that [%] discards. *)
Definition trunc (r : R) : Z :=
  if Rle_dec 0 r then Int_part r else (- Int_part (- r))%Z.

(** [x % d] on reals with [d <> 0]: the remainder of the division truncated
    toward zero, so it takes the sign of the dividend [x]. *)
Definition fmod (x d : R) : R := x - d * IZR (trunc (x / d)).

(** [a % b]: [NaN] when an operand is [NaN] or the divisor is zero. *)
Definition rem (a b : number) : number :=
  match a, b with
  | Fin x, Fin d => if Req_dec_T d 0 then NaN else Fin (fmod x d)
  | _, _ => NaN
  end.

(** [a / b].  A zero divisor under a non-zero real dividend is an infinity
    in JavaScript, which [number] does not have; the model answers [NaN]
    there.  [moveParticle] never meets that case: it divides by [duration],
    under a dividend that is already [NaN] when [duration] is zero (lemma
    [elapsed_zero_duration]), and by the constant 90. *)
Definition div (a b : number) : number :=
  match a, b with
  | Fin x, Fin d => if Req_dec_T d 0 then NaN else Fin (x / d)
  | _, _ => NaN
  end.

(** [Math.abs], [Math.sin], and [Math.pow] at a natural exponent. *)
Definition Math_abs : number -> number := lift1 Rabs.
Definition Math_sin : number -> number := lift1 sin.
Definition Math_pow (b : number) (e : nat) : number := lift1 (fun r => r ^ e) b.

(** [Math.PI] *)
Definition Math_PI : R := PI.

(** The comparisons [a < b] and [a >= b]: false as soon as an operand is
    [NaN]. *)
Definition lt (a b : number) : Prop :=
  match a, b with
  | Fin r, Fin s => r < s
  | _, _ => False
  end.

Definition ge (a b : number) : Prop :=
  match a, b with
  | Fin r, Fin s => r >= s
  | _, _ => False
  end.

End JS.

Import JS.

Coercion Fin : R >-> number.

Declare Scope js_scope.
Delimit Scope js_scope with js.
Bind Scope js_scope with number.
Infix "+" := JS.add : js_scope.
Infix "-" := JS.sub : js_scope.
Infix "*" := JS.mul : js_scope.
Infix "/" := JS.div : js_scope.
Infix "%%" := JS.rem (at level 40, left associativity) : js_scope.
Notation "- a" := (JS.neg a) : js_scope.

(** ** Data model *)

(** [THREE.Vector3], as far as [set] reaches. *)
Record Vector3 : Type := mkVector3 {
  vx : number;
  vy : number;
  vz : number;
}.

(** The part of a [THREE.Mesh] the program writes: its position and its
    scale.  Geometry and material are shared constants of the renderer. *)
Record Object3D : Type := mkObject3D {
  position : Vector3;
  scale : Vector3;
}.

(** A reference to a mesh: its index in the store of the world. *)
Abbreviation ref := nat (only parsing).

(** [interface Particle] *)
Record Particle : Type := mkParticle {
  duration : R;
  amplitude : R;
  offsetY : R;
  arc : R;
  startTime : R;
  z : R;
  geometry : ref;
}.

(** Everything the program reads or writes.

    - [objects] is the store of meshes; the particle's [geometry] and the
      scene's child list both point into it, as they share one mesh object
      in the program;
    - [scene] is [scene.children];
    - [particles] is the module-level array [particles];
    - [normalDraws] and [uniformDraws] are the outcomes of the random source
      in the order they are asked for, [nextNormal] and [nextUniform] count
      the draws consumed so far;
    - [now] is what [performance.now()] answers. *)
Record World : Type := mkWorld {
  objects : list Object3D;
  scene : list ref;
  particles : list Particle;
  normalDraws : nat -> R;
  nextNormal : nat;
  uniformDraws : nat -> R;
  nextUniform : nat;
  now : R;
}.

(** ** Constants *)

Definition NUM_PARTICLES : nat := 3000.
Definition PARTICLE_SIZE : R := 3 / 10.
Definition SPEED : R := 20000.

(** ** The kinematic evaluator *)

(** [vector.set(x, y, z)] *)
Definition Vector3_set (x y z : number) (_ : Vector3) : Vector3 :=
  mkVector3 x y z.

(** [o.position.set(x, y, z)] on the mesh behind reference [r]. *)
Definition position_set (r : ref) (x y z : number) (w : World) : World :=
  let write (o : Object3D) :=
    mkObject3D (Vector3_set x y z (position o)) (scale o) in
  mkWorld (alter write r (objects w)) (scene w) (particles w)
          (normalDraws w) (nextNormal w) (uniformDraws w) (nextUniform w)
          (now w).

(** [function moveParticle(particle, time)], line by line. *)
Definition moveParticle (particle : Particle) (time : R) (w : World) : World :=
  let progress : number :=
    (1 - (Fin (time - startTime particle) %% duration particle)
           / duration particle)%js in
  let x : number := (progress * 300 - 150)%js in
  let distanceFromCenter : number := Math_abs x in
  let maxDistance : number := 90 in
  let shrinkFactor : number :=
    (1 - Math_pow (distanceFromCenter / maxDistance) 2)%js in
  let amplitude : number := (amplitude particle * shrinkFactor)%js in
  let offsetY : number := (offsetY particle * shrinkFactor)%js in
  let y : number :=
    (- Math_sin (progress * arc particle) * amplitude + offsetY)%js in
  position_set (geometry particle) x y (z particle) w.

(** The intermediate values of [moveParticle], each as a function of what it
    is computed from, under the names the source gives them. *)
Module Kinematics.

(** [(time - particle.startTime) % particle.duration] *)
Definition elapsed (particle : Particle) (time : R) : number :=
  (Fin (time - startTime particle) %% duration particle)%js.

Definition progress (particle : Particle) (time : R) : number :=
  (1 - elapsed particle time / duration particle)%js.

Definition x (progress : number) : number := (progress * 300 - 150)%js.

Definition shrinkFactor (x : number) : number :=
  (1 - Math_pow (Math_abs x / 90) 2)%js.

Definition y (particle : Particle) (progress : number) : number :=
  let shrink := shrinkFactor (x progress) in
  (- Math_sin (progress * arc particle) * (amplitude particle * shrink)
   + offsetY particle * shrink)%js.

(** The three arguments of [position.set]. *)
Definition coordinates (particle : Particle) (time : R) : Vector3 :=
  let progress := progress particle time in
  mkVector3 (x progress) (y particle progress) (z particle).

End Kinematics.

(** ** The particle factory *)

(** Computations that read and write the world. *)
Definition M (A : Type) : Type := World -> A * World.

Definition ret {A : Type} (a : A) : M A := fun w => (a, w).

Definition bind {A B : Type} (c : M A) (k : A -> M B) : M B :=
  fun w => let (a, w') := c w in k a w'.

Notation "x <- c ;; k" := (bind c (fun x => k))
  (at level 100, c at next level, right associativity).
Notation "c ;; k" := (bind c (fun _ => k))
  (at level 100, right associativity).

(** Modelled from the spec: the package [random-normal] is not part of the
    sources.  The spec calls [randomNormal({mean, dev})] a sample of the
    normal distribution with that mean and deviation; the model takes the
    next standard normal deviate of the random source, which may be any
    real, and moves it to [mean] and [dev]. *)
Definition randomNormal (mean dev : R) : M R := fun w =>
  (mean + dev * normalDraws w (nextNormal w),
   mkWorld (objects w) (scene w) (particles w)
           (normalDraws w) (S (nextNormal w)) (uniformDraws w) (nextUniform w)
           (now w)).

(** [Math.random()]: the next uniform draw of the random source. *)
Definition Math_random : M R := fun w =>
  (uniformDraws w (nextUniform w),
   mkWorld (objects w) (scene w) (particles w)
           (normalDraws w) (nextNormal w) (uniformDraws w) (S (nextUniform w))
           (now w)).

(** [performance.now()] *)
Definition performance_now : M R := fun w => (now w, w).

(** [new THREE.Mesh(sphereGeometry, material)]: a fresh mesh at the origin
    with unit scale; the answer is its reference. *)
Definition new_Mesh : M ref := fun w =>
  (length (objects w),
   mkWorld (objects w ++ [mkObject3D (mkVector3 0 0 0) (mkVector3 1 1 1)])
           (scene w) (particles w)
           (normalDraws w) (nextNormal w) (uniformDraws w) (nextUniform w)
           (now w)).

(** [o.scale.set(x, y, z)] *)
Definition scale_set (r : ref) (x y z : number) : M unit := fun w =>
  let write (o : Object3D) :=
    mkObject3D (position o) (Vector3_set x y z (scale o)) in
  (tt,
   mkWorld (alter write r (objects w)) (scene w) (particles w)
           (normalDraws w) (nextNormal w) (uniformDraws w) (nextUniform w)
           (now w)).

(** [scene.add(o)] *)
Definition scene_add (r : ref) : M unit := fun w =>
  (tt,
   mkWorld (objects w) (scene w ++ [r]) (particles w)
           (normalDraws w) (nextNormal w) (uniformDraws w) (nextUniform w)
           (now w)).

(** [particles.push(p)] *)
Definition particles_push (p : Particle) : M unit := fun w =>
  (tt,
   mkWorld (objects w) (scene w) (particles w ++ [p])
           (normalDraws w) (nextNormal w) (uniformDraws w) (nextUniform w)
           (now w)).

(** [function rand(low, high)] *)
Definition rand (low high : R) : M R :=
  u <- Math_random ;;
  ret (u * (high - low) + low).

(** [function createParticle(scene)]; the argument is the one scene of the
    world.  The draws are taken in the order the program evaluates them: the
    scale first, then the properties of the object literal from top to
    bottom.  Colour and material of the mesh are not kept. *)
Definition createParticle : M Particle :=
  scale <- randomNormal (7 / 10) (2 / 5) ;;
  circle <- new_Mesh ;;
  scale_set circle scale scale scale ;;
  scene_add circle ;;
  duration <- randomNormal SPEED (SPEED / 10) ;;
  amplitude <- randomNormal 25 1 ;;
  offsetY <- randomNormal 0 12 ;;
  arc <- randomNormal (Math_PI * 2) (1 / 10) ;;
  created <- performance_now ;;
  shift <- rand 0 SPEED ;;
  z <- randomNormal 0 8 ;;
  ret (mkParticle duration amplitude offsetY arc (created - shift) z circle).

(** ** The frame loop *)

(** The [for] loop of [draw]: every particle of the array is moved to its
    place at [time].  Rendering and the request for the next frame belong to
    the renderer. *)
Definition draw (time : R) (w : World) : World :=
  fold_left (fun w' p => moveParticle p time w') (particles w) w.

(** The [for] loop of [startAnimation]. *)
Fixpoint spawn (n : nat) : M unit :=
  match n with
  | O => ret tt
  | S n' => p <- createParticle ;; particles_push p ;; spawn n'
  end.

Definition startAnimation : M unit := spawn NUM_PARTICLES.

(** ** Sample inputs *)

(** A particle whose cycle starts half a second after time 0. *)
Definition lateParticle : Particle :=
  mkParticle 1000 25 0 (2 * PI) 500 0 0%nat.

(** The particle of the worked example: one second per cycle, started at
    time 0, amplitude 25, no vertical offset, an arc of one full turn. *)
Definition unitParticle : Particle :=
  mkParticle 1000 25 0 (2 * PI) 0 0 0%nat.

(** A particle with the timing of [unitParticle] and every other parameter
    different. *)
Definition flatParticle : Particle :=
  mkParticle 1000 7 3 1 0 42 0%nat.

(** A world with one mesh at the origin, no particle yet, a random source
    that answers [n k] to the [k]-th normal draw and [0] to every uniform
    draw, and a clock that reads [1000]. *)
Definition worldWith (n : nat -> R) : World :=
  mkWorld [mkObject3D (mkVector3 0 0 0) (mkVector3 1 1 1)] [0%nat] []
          n 0 (fun _ => 0) 0 1000.

(** A random source whose normal draws all sit at the mean, and two whose
    second normal draw, the one [createParticle] turns into [duration], lies
    eleven and ten deviations below it. *)
Definition meanDraws (k : nat) : R := 0.
Definition negativeDurationDraws (k : nat) : R := if Nat.eqb k 1 then -11 else 0.
Definition zeroDurationDraws (k : nat) : R := if Nat.eqb k 1 then -10 else 0.

(** [Math.random()] answers in [0, 1). *)
Definition uniform_ok (w : World) : Prop :=
  forall k : nat, 0 <= uniformDraws w k < 1.

(** ** The camera distance *)

(** The quotients of [getZFromWidth] can leave the reals: a zero divisor
    under a non-zero dividend gives an infinity. *)
Module Extended.

Inductive xnumber : Type :=
| Number (a : number)
| Infinity (negative : bool).

(** [x / d] on real operands.  The sign of a zero divisor is not
    represented: zero is taken as [+0], which is what [window.innerWidth], an
    unsigned integer, can be. *)
Definition xdiv (x d : R) : xnumber :=
  if Req_dec_T d 0 then
    if Req_dec_T x 0 then Number NaN
    else if Rlt_dec x 0 then Infinity true else Infinity false
  else Number (Fin (x / d)).

End Extended.

Import Extended.

(** [function getZFromWidth(width)].  [width / baseWidth] divides by the
    non-zero constant 1440 and stays real. *)
Definition getZFromWidth (width : R) : xnumber :=
  let baseWidth : R := 1440 in
  let baseZ : R := 125 in
  let scale : R := width / baseWidth in
  xdiv baseZ scale.

(** The loop of [draw] over a given list of particles. *)
Definition moveAll (time : R) (ps : list Particle) (w : World) : World :=
  fold_left (fun w' p => moveParticle p time w') ps w.

(** The body of the loop of [startAnimation]. *)
Definition spawnOne : M unit :=
  p <- createParticle ;; particles_push p.

(** ** Ownership of meshes *)

(** Every particle of the array points to a mesh of the store, and no two
    particles point to the same one. *)
Definition exclusive (w : World) : Prop :=
  NoDup (geometry <$> particles w) /\
  Forall (fun p => (geometry p < length (objects w))%nat) (particles w).

(** Two worlds that differ at most in the positions of the meshes behind the
    references [refs]. *)
Definition same_but_positions (refs : list nat) (w1 w2 : World) : Prop :=
  scene w1 = scene w2 /\
  particles w1 = particles w2 /\
  normalDraws w1 = normalDraws w2 /\
  nextNormal w1 = nextNormal w2 /\
  uniformDraws w1 = uniformDraws w2 /\
  nextUniform w1 = nextUniform w2 /\
  now w1 = now w2 /\
  length (objects w1) = length (objects w2) /\
  (forall r : nat, scale <$> objects w1 !! r = scale <$> objects w2 !! r) /\
  (forall r : nat, r ∉ refs -> objects w1 !! r = objects w2 !! r).

(** More sample inputs *)

(** A particle running backwards: a negative duration. *)
Definition backwardParticle : Particle :=
  mkParticle (-1000) 25 0 (2 * PI) 0 0 0%nat.

(** A particle of duration zero. *)
Definition stillParticle : Particle :=
  mkParticle 0 25 3 (2 * PI) 0 7 0%nat.

(** A second particle for the second mesh of [twoMeshWorld]. *)
Definition secondParticle : Particle :=
  mkParticle 2000 20 5 6 100 (-3) 1%nat.

(** A world with two meshes and the two particles that own them. *)
Definition twoMeshWorld : World :=
  mkWorld [mkObject3D (mkVector3 0 0 0) (mkVector3 1 1 1);
           mkObject3D (mkVector3 0 0 0) (mkVector3 2 2 2)]
          [0%nat; 1%nat] [unitParticle; secondParticle]
          meanDraws 0 (fun _ => 1 / 2) 0 1000.

(** * Properties *)

(** ** Truncation and remainder *)

Lemma trunc_nonneg (r : R) :
  0 <= r -> IZR (trunc r) <= r < IZR (trunc r) + 1.
Proof.
  intros Hr. unfold trunc. destruct (Rle_dec 0 r) as [_|Hn]; [|lra].
  pose proof (base_Int_part r). lra.
Qed.

Lemma trunc_neg (r : R) : r < 0 -> r <= IZR (trunc r) < r + 1.
Proof.
  intros Hr. unfold trunc. destruct (Rle_dec 0 r) as [Hn|_]; [lra|].
  pose proof (base_Int_part (- r)). rewrite opp_IZR. lra.
Qed.

Lemma trunc_eq_nonneg (r : R) (q : Z) :
  0 <= r -> IZR q <= r < IZR q + 1 -> trunc r = q.
Proof.
  intros Hr Hq. unfold trunc. destruct (Rle_dec 0 r) as [_|Hn]; [|lra].
  symmetry. apply Int_part_spec. lra.
Qed.

Lemma trunc_eq_neg (r : R) (q : Z) :
  r < 0 -> r <= IZR q < r + 1 -> trunc r = q.
Proof.
  intros Hr Hq. unfold trunc. destruct (Rle_dec 0 r) as [Hn|_]; [lra|].
  assert (H : (- q)%Z = Int_part (- r)).
  { apply Int_part_spec. rewrite opp_IZR. lra. }
  rewrite <- H. apply Z.opp_involutive.
Qed.

Lemma quotient_scale (x d : R) : d <> 0 -> x = d * (x / d).
Proof. intros Hd. field. exact Hd. Qed.

(** A non-negative dividend leaves a remainder in [0, d). *)
Lemma fmod_nonneg (x d : R) : 0 < d -> 0 <= x -> 0 <= fmod x d < d.
Proof.
  intros Hd Hx. unfold fmod.
  pose proof (quotient_scale x d ltac:(lra)) as Hs.
  assert (Hq : 0 <= x / d) by (remember (x / d) as q; nra).
  pose proof (trunc_nonneg _ Hq) as Ht.
  remember (x / d) as q. remember (IZR (trunc q)) as n. nra.
Qed.

(** A negative dividend leaves a remainder in (-d, 0]. *)
Lemma fmod_neg (x d : R) : 0 < d -> x < 0 -> - d < fmod x d <= 0.
Proof.
  intros Hd Hx. unfold fmod.
  pose proof (quotient_scale x d ltac:(lra)) as Hs.
  assert (Hq : x / d < 0) by (remember (x / d) as q; nra).
  pose proof (trunc_neg _ Hq) as Ht.
  remember (x / d) as q. remember (IZR (trunc q)) as n. nra.
Qed.

Lemma fmod_shift_nonneg (x d : R) :
  0 < d -> 0 <= x -> fmod (x + d) d = fmod x d.
Proof.
  intros Hd Hx. unfold fmod.
  pose proof (quotient_scale x d ltac:(lra)) as Hs.
  assert (Hq : 0 <= x / d) by (remember (x / d) as q; nra).
  assert (He : (x + d) / d = x / d + 1) by (field; lra).
  rewrite He.
  pose proof (trunc_nonneg _ Hq) as Ht.
  rewrite (trunc_eq_nonneg (x / d + 1) (trunc (x / d) + 1)).
  - rewrite plus_IZR. lra.
  - lra.
  - rewrite plus_IZR. lra.
Qed.

Lemma fmod_shift_neg (x d : R) :
  0 < d -> x <= - d -> fmod (x + d) d = fmod x d.
Proof.
  intros Hd Hx. unfold fmod.
  pose proof (quotient_scale x d ltac:(lra)) as Hs.
  assert (Hq : x / d <= -1) by (remember (x / d) as q; nra).
  assert (He : (x + d) / d = x / d + 1) by (field; lra).
  rewrite He.
  pose proof (trunc_neg (x / d) ltac:(lra)) as Ht.
  destruct (Req_dec_T (x / d) (-1)) as [E|N].
  - rewrite E. replace (-1 + 1) with 0 by lra.
    rewrite (trunc_eq_nonneg 0 0), (trunc_eq_neg (-1) (-1)); simpl; lra.
  - rewrite (trunc_eq_neg (x / d + 1) (trunc (x / d) + 1)).
    + rewrite plus_IZR. lra.
    + lra.
    + rewrite plus_IZR. lra.
Qed.

(** Inside one period the remainder is the dividend itself, on either side
    of zero. *)
Lemma fmod_small_neg (x d : R) : 0 < d -> - d < x < 0 -> fmod x d = x.
Proof.
  intros Hd Hx. unfold fmod.
  pose proof (quotient_scale x d ltac:(lra)) as Hs.
  assert (Hq : -1 < x / d < 0) by (remember (x / d) as q; nra).
  rewrite (trunc_eq_neg (x / d) 0); simpl; lra.
Qed.

Lemma fmod_small_nonneg (x d : R) : 0 <= x < d -> fmod x d = x.
Proof.
  intros Hx. unfold fmod.
  pose proof (quotient_scale x d ltac:(lra)) as Hs.
  assert (Hq : 0 <= x / d < 1) by (remember (x / d) as q; nra).
  rewrite (trunc_eq_nonneg (x / d) 0); simpl; lra.
Qed.

(** The remainder of a non-negative dividend is non-negative whatever the
    sign of the divisor. *)
Lemma fmod_sign_nonneg (x d : R) : d <> 0 -> 0 <= x -> 0 <= fmod x d.
Proof.
  intros Hd Hx. destruct (Rlt_le_dec 0 d) as [Hp|Hn].
  - apply fmod_nonneg; assumption.
  - unfold fmod.
    pose proof (quotient_scale x d Hd) as Hs.
    assert (Hq : x / d <= 0) by (remember (x / d) as q; nra).
    destruct (Req_dec_T (x / d) 0) as [E|N].
    + rewrite E. rewrite (trunc_eq_nonneg 0 0); simpl; lra.
    + pose proof (trunc_neg (x / d) ltac:(lra)) as Ht.
      remember (x / d) as q. remember (IZR (trunc q)) as n. nra.
Qed.

(** ** The stages of [moveParticle] on real operands *)

Lemma rem_fin (x d : R) : d <> 0 -> JS.rem (Fin x) (Fin d) = Fin (fmod x d).
Proof.
  intros Hd. unfold JS.rem. destruct (Req_dec_T d 0); [contradiction|reflexivity].
Qed.

Lemma rem_zero (a : number) : JS.rem a (Fin 0) = NaN.
Proof.
  destruct a as [|x]; [reflexivity|]. unfold JS.rem.
  destruct (Req_dec_T 0 0); [reflexivity|contradiction].
Qed.

Lemma div_fin (x d : R) : d <> 0 -> JS.div (Fin x) (Fin d) = Fin (x / d).
Proof.
  intros Hd. unfold JS.div. destruct (Req_dec_T d 0); [contradiction|reflexivity].
Qed.

Lemma elapsed_fin (p : Particle) (t : R) :
  duration p <> 0 ->
  Kinematics.elapsed p t = Fin (fmod (t - startTime p) (duration p)).
Proof. intros Hd. unfold Kinematics.elapsed. apply rem_fin, Hd. Qed.

Lemma elapsed_zero_duration (p : Particle) (t : R) :
  duration p = 0 -> Kinematics.elapsed p t = NaN.
Proof. intros Hd. unfold Kinematics.elapsed. rewrite Hd. apply rem_zero. Qed.

Lemma progress_fin (p : Particle) (t : R) :
  duration p <> 0 ->
  Kinematics.progress p t
  = Fin (1 - fmod (t - startTime p) (duration p) / duration p).
Proof.
  intros Hd. unfold Kinematics.progress.
  rewrite (elapsed_fin p t Hd), (div_fin _ _ Hd). reflexivity.
Qed.

Lemma x_fin (r : R) : Kinematics.x (Fin r) = Fin (r * 300 - 150).
Proof. reflexivity. Qed.

Lemma shrinkFactor_fin (r : R) :
  Kinematics.shrinkFactor (Fin r) = Fin (1 - (Rabs r / 90) ^ 2).
Proof.
  unfold Kinematics.shrinkFactor. cbn [Math_abs lift1].
  rewrite div_fin by lra. reflexivity.
Qed.

Lemma y_fin (p : Particle) (r : R) :
  Kinematics.y p (Fin r)
  = Fin (- sin (r * arc p)
           * (amplitude p * (1 - (Rabs (r * 300 - 150) / 90) ^ 2))
         + offsetY p * (1 - (Rabs (r * 300 - 150) / 90) ^ 2)).
Proof.
  unfold Kinematics.y. rewrite x_fin, shrinkFactor_fin. reflexivity.
Qed.

(** ** What [moveParticle] writes *)

(** The call is one [position.set] with the three coordinates of
    [Kinematics.coordinates]. *)
Lemma moveParticle_coordinates (p : Particle) (t : R) (w : World) :
  moveParticle p t w
  = position_set (geometry p)
      (vx (Kinematics.coordinates p t))
      (vy (Kinematics.coordinates p t))
      (vz (Kinematics.coordinates p t)) w.
Proof. reflexivity. Qed.

(** After the call the particle's mesh sits at those coordinates. *)
Lemma moveParticle_position (p : Particle) (t : R) (w : World) (o : Object3D) :
  objects w !! geometry p = Some o ->
  objects (moveParticle p t w) !! geometry p
  = Some (mkObject3D (Kinematics.coordinates p t) (scale o)).
Proof.
  intros Ho. rewrite moveParticle_coordinates. unfold position_set. cbn [objects].
  rewrite list_lookup_alter_eq, Ho. reflexivity.
Qed.

(** The coordinates depend on the time only through the remainder. *)
Lemma coordinates_of_elapsed (p : Particle) (t t' : R) :
  Kinematics.elapsed p t' = Kinematics.elapsed p t ->
  Kinematics.coordinates p t' = Kinematics.coordinates p t.
Proof.
  intros He. unfold Kinematics.coordinates, Kinematics.progress.
  rewrite He. reflexivity.
Qed.

(** ** The remainder and the period *)

(** C1, as stated, fails: half a second before its start the particle
    [lateParticle] has an elapsed value of [-500], outside [0, duration). *)
Lemma elapsed_before_start_counterexample :
  duration lateParticle > 0 /\
  0 - startTime lateParticle < 0 /\
  Kinematics.elapsed lateParticle 0 = Fin (-500) /\
  ~ (exists e : R,
       Kinematics.elapsed lateParticle 0 = Fin e /\
       0 <= e < duration lateParticle).
Proof.
  assert (He : Kinematics.elapsed lateParticle 0 = Fin (-500)).
  { rewrite elapsed_fin by (cbn; lra). cbn [startTime duration lateParticle].
    f_equal. rewrite fmod_small_neg; lra. }
  cbn [startTime duration lateParticle].
  repeat split; [lra | lra | exact He |].
  intros (e & Hf & Hr). rewrite He in Hf. injection Hf as <-. lra.
Qed.

(** C1, amended: for a particle with [duration > 0] and a time [t] with
    [t - startTime < 0], the elapsed value [(t - startTime) % duration] is a
    real in (-duration, 0]: the remainder takes the sign of the dividend. *)
Theorem elapsed_before_start (p : Particle) (t : R) :
  duration p > 0 ->
  t - startTime p < 0 ->
  exists e : R,
    Kinematics.elapsed p t = Fin e /\ - duration p < e <= 0.
Proof.
  intros Hd Ht. exists (fmod (t - startTime p) (duration p)). split.
  - apply elapsed_fin. lra.
  - apply fmod_neg; lra.
Qed.

Lemma elapsed_before_start_witness :
  duration lateParticle > 0 /\
  0 - startTime lateParticle < 0 /\
  exists e : R,
    Kinematics.elapsed lateParticle 0 = Fin e /\
    - duration lateParticle < e <= 0.
Proof.
  assert (Hd : duration lateParticle > 0) by (cbn; lra).
  assert (Ht : 0 - startTime lateParticle < 0) by (cbn; lra).
  split; [exact Hd | split; [exact Ht |]].
  exact (elapsed_before_start lateParticle 0 Hd Ht).
Defined.

(** From the start time on, the elapsed value lies in [0, duration). *)
Lemma elapsed_after_start (p : Particle) (t : R) :
  duration p > 0 ->
  0 <= t - startTime p ->
  exists e : R,
    Kinematics.elapsed p t = Fin e /\ 0 <= e < duration p.
Proof.
  intros Hd Ht. exists (fmod (t - startTime p) (duration p)). split.
  - apply elapsed_fin. lra.
  - apply fmod_nonneg; lra.
Qed.

(** During the last period before the start, one period later the particle
    is 300 units further left: the remainder jumps from [t - startTime] to
    [t - startTime + duration]. *)
Lemma x_across_start (p : Particle) (t : R) :
  duration p > 0 ->
  - duration p < t - startTime p < 0 ->
  exists x : R,
    vx (Kinematics.coordinates p t) = Fin x /\
    vx (Kinematics.coordinates p (t + duration p)) = Fin (x - 300).
Proof.
  intros Hd Ht.
  exists ((1 - (t - startTime p) / duration p) * 300 - 150).
  unfold Kinematics.coordinates. cbn [vx].
  rewrite !progress_fin, !x_fin by lra.
  rewrite (fmod_small_neg (t - startTime p)) by lra.
  rewrite (fmod_small_nonneg (t + duration p - startTime p)) by lra.
  split; f_equal. field. lra.
Qed.

(** C2, as stated, fails: at time 0 [lateParticle] is written to x = 300,
    one period later to x = 0. *)
Lemma periodicity_counterexample :
  duration lateParticle > 0 /\
  vx (Kinematics.coordinates lateParticle 0) = Fin 300 /\
  vx (Kinematics.coordinates lateParticle (0 + duration lateParticle)) = Fin 0 /\
  moveParticle lateParticle (0 + duration lateParticle) (worldWith meanDraws)
  <> moveParticle lateParticle 0 (worldWith meanDraws).
Proof.
  assert (H0 : vx (Kinematics.coordinates lateParticle 0) = Fin 300).
  { unfold Kinematics.coordinates. cbn [vx].
    rewrite progress_fin, x_fin by (cbn; lra).
    cbn [startTime duration lateParticle].
    rewrite fmod_small_neg by lra. f_equal. lra. }
  assert (H1 : vx (Kinematics.coordinates lateParticle
                     (0 + duration lateParticle)) = Fin 0).
  { unfold Kinematics.coordinates. cbn [vx].
    rewrite progress_fin, x_fin by (cbn; lra).
    cbn [startTime duration lateParticle].
    rewrite fmod_small_nonneg by lra. f_equal. lra. }
  split; [cbn; lra | split; [exact H0 | split; [exact H1 |]]].
  intros Hw.
  assert (Ho : objects (worldWith meanDraws) !! geometry lateParticle
               = Some (mkObject3D (mkVector3 0 0 0) (mkVector3 1 1 1)))
    by reflexivity.
  pose proof (moveParticle_position lateParticle 0 _ _ Ho) as P0.
  pose proof (moveParticle_position lateParticle
                (0 + duration lateParticle) _ _ Ho) as P1.
  rewrite Hw, P0 in P1.
  remember (Kinematics.coordinates lateParticle 0) as c0.
  remember (Kinematics.coordinates lateParticle (0 + duration lateParticle))
    as c1.
  injection P1 as Hc. rewrite Hc, H1 in H0. injection H0 as H. lra.
Qed.

(** C2, amended: for a particle with [duration > 0] and a time [t] that is
    not within the last period before the start ([t - startTime >= 0] or
    [t - startTime <= - duration]), [moveParticle] computes the same
    position at [t + duration] as at [t], and leaves the same world. *)
Theorem moveParticle_periodic (p : Particle) (t : R) :
  duration p > 0 ->
  0 <= t - startTime p \/ t - startTime p <= - duration p ->
  Kinematics.coordinates p (t + duration p) = Kinematics.coordinates p t /\
  forall w : World, moveParticle p (t + duration p) w = moveParticle p t w.
Proof.
  intros Hd Ht.
  assert (Hc : Kinematics.coordinates p (t + duration p)
               = Kinematics.coordinates p t).
  { apply coordinates_of_elapsed. rewrite !elapsed_fin by lra. f_equal.
    replace (t + duration p - startTime p)
      with (t - startTime p + duration p) by lra.
    destruct Ht as [Ht|Ht].
    - apply fmod_shift_nonneg; lra.
    - apply fmod_shift_neg; lra. }
  split; [exact Hc |].
  intros w. rewrite !moveParticle_coordinates, Hc. reflexivity.
Qed.

Lemma moveParticle_periodic_witness :
  duration unitParticle > 0 /\
  (0 <= 250 - startTime unitParticle
   \/ 250 - startTime unitParticle <= - duration unitParticle) /\
  Kinematics.coordinates unitParticle (250 + duration unitParticle)
  = Kinematics.coordinates unitParticle 250.
Proof.
  assert (Hd : duration unitParticle > 0) by (cbn; lra).
  assert (Ht : 0 <= 250 - startTime unitParticle
               \/ 250 - startTime unitParticle <= - duration unitParticle)
    by (left; cbn; lra).
  split; [exact Hd | split; [exact Ht |]].
  exact (proj1 (moveParticle_periodic unitParticle 250 Hd Ht)).
Defined.

(** ** The horizontal sweep *)

(** C3, as stated, fails: the endpoints are the other way round. *)
Lemma sweep_endpoints_counterexample :
  Kinematics.x (Fin 0) <> Fin 150 /\ Kinematics.x (Fin 1) <> Fin (-150).
Proof.
  rewrite !x_fin. split; intros H; injection H as H; lra.
Qed.

(** C3, amended: at [progress = 0] the computed x coordinate is [-150], at
    [progress = 1] it is [150], for every particle; the x coordinate that
    [moveParticle] writes is this function of the progress. *)
Theorem sweep_endpoints :
  Kinematics.x (Fin 0) = Fin (-150) /\
  Kinematics.x (Fin 1) = Fin 150 /\
  forall (p : Particle) (t : R),
    vx (Kinematics.coordinates p t) = Kinematics.x (Kinematics.progress p t).
Proof.
  rewrite !x_fin. repeat split; f_equal; lra.
Qed.

(** C4: two particles with equal [duration] and equal [startTime] get the
    same x coordinate at every time, whatever their [amplitude], [offsetY],
    [arc], [z] and mesh. *)
Theorem x_depends_on_timing_only (p q : Particle) (t : R) :
  duration p = duration q ->
  startTime p = startTime q ->
  vx (Kinematics.coordinates p t) = vx (Kinematics.coordinates q t).
Proof.
  intros Hd Hs.
  unfold Kinematics.coordinates, Kinematics.progress, Kinematics.elapsed.
  cbn [vx]. rewrite Hd, Hs. reflexivity.
Qed.

Lemma x_depends_on_timing_only_witness :
  duration unitParticle = duration flatParticle /\
  startTime unitParticle = startTime flatParticle /\
  amplitude unitParticle <> amplitude flatParticle /\
  vx (Kinematics.coordinates unitParticle 250)
  = vx (Kinematics.coordinates flatParticle 250).
Proof.
  assert (Hd : duration unitParticle = duration flatParticle) by reflexivity.
  assert (Hs : startTime unitParticle = startTime flatParticle) by reflexivity.
  split; [exact Hd | split; [exact Hs | split]].
  - cbn. lra.
  - exact (x_depends_on_timing_only unitParticle flatParticle 250 Hd Hs).
Defined.

(** ** The taper *)

Lemma shrinkFactor_NaN : Kinematics.shrinkFactor NaN = NaN.
Proof. reflexivity. Qed.

(** C5: [shrinkFactor] is 1 exactly at [x = 0], and strictly smaller at the
    x with the larger distance from the centre, for distances up to 90. *)
Theorem shrinkFactor_taper :
  (forall x : number, Kinematics.shrinkFactor x = Fin 1 <-> x = Fin 0) /\
  (forall x1 x2 : R,
     0 <= Rabs x1 /\ Rabs x1 < Rabs x2 <= 90 ->
     JS.lt (Kinematics.shrinkFactor (Fin x2)) (Kinematics.shrinkFactor (Fin x1))).
Proof.
  split.
  - intros [|r].
    + rewrite shrinkFactor_NaN. split; discriminate.
    + rewrite shrinkFactor_fin. split; intros H.
      * injection H as H. f_equal.
        pose proof (Rabs_pos r) as Ha.
        destruct (Req_dec_T r 0) as [E|N]; [exact E|].
        pose proof (Rabs_pos_lt r N). remember (Rabs r) as a. nra.
      * injection H as ->. rewrite Rabs_R0. f_equal. lra.
  - intros x1 x2 H. rewrite !shrinkFactor_fin. cbn [JS.lt].
    remember (Rabs x1) as a1. remember (Rabs x2) as a2. nra.
Qed.

Lemma shrinkFactor_taper_witness :
  (0 <= Rabs 30 /\ Rabs 30 < Rabs (-60) <= 90) /\
  JS.lt (Kinematics.shrinkFactor (Fin (-60))) (Kinematics.shrinkFactor (Fin 30)).
Proof.
  assert (H : 0 <= Rabs 30 /\ Rabs 30 < Rabs (-60) <= 90).
  { rewrite (Rabs_right 30), (Rabs_left (-60)) by lra. lra. }
  split; [exact H |].
  exact (proj2 shrinkFactor_taper 30 (-60) H).
Defined.

(** ** The worked example *)

Lemma unitParticle_progress_0 : Kinematics.progress unitParticle 0 = Fin 1.
Proof.
  rewrite progress_fin by (cbn; lra). cbn [startTime duration unitParticle].
  rewrite fmod_small_nonneg by lra. f_equal. lra.
Qed.

Lemma unitParticle_progress_500 :
  Kinematics.progress unitParticle 500 = Fin (1 / 2).
Proof.
  rewrite progress_fin by (cbn; lra). cbn [startTime duration unitParticle].
  rewrite fmod_small_nonneg by lra. f_equal. lra.
Qed.

(** C6: for [unitParticle] at time 0, [progress = 1], [x = 150] and
    [shrinkFactor = 1 - (150/90)^2 = -16/9]. *)
Theorem unitParticle_at_0 :
  Kinematics.progress unitParticle 0 = Fin 1 /\
  vx (Kinematics.coordinates unitParticle 0) = Fin 150 /\
  Kinematics.shrinkFactor (vx (Kinematics.coordinates unitParticle 0))
  = Fin (1 - (150 / 90) ^ 2) /\
  1 - (150 / 90) ^ 2 = - 16 / 9.
Proof.
  assert (Hx : vx (Kinematics.coordinates unitParticle 0) = Fin 150).
  { unfold Kinematics.coordinates. cbn [vx].
    rewrite unitParticle_progress_0, x_fin. f_equal. lra. }
  split; [exact unitParticle_progress_0 | split; [exact Hx | split]].
  - rewrite Hx, shrinkFactor_fin. rewrite Rabs_right by lra. reflexivity.
  - field.
Qed.

(** C7: for [unitParticle] at time 500, [progress = 1/2], [x = 0],
    [shrinkFactor = 1] and [y = - sin PI * 25], which is exactly 0; the mesh
    is written to the origin. *)
Theorem unitParticle_at_500 :
  Kinematics.progress unitParticle 500 = Fin (1 / 2) /\
  vx (Kinematics.coordinates unitParticle 500) = Fin 0 /\
  Kinematics.shrinkFactor (vx (Kinematics.coordinates unitParticle 500))
  = Fin 1 /\
  vy (Kinematics.coordinates unitParticle 500) = Fin (- sin PI * 25) /\
  - sin PI * 25 = 0 /\
  objects (moveParticle unitParticle 500 (worldWith meanDraws)) !! 0%nat
  = Some (mkObject3D (mkVector3 0 0 0) (mkVector3 1 1 1)).
Proof.
  assert (Hx : vx (Kinematics.coordinates unitParticle 500) = Fin 0).
  { unfold Kinematics.coordinates. cbn [vx].
    rewrite unitParticle_progress_500, x_fin. f_equal. lra. }
  assert (Hy : vy (Kinematics.coordinates unitParticle 500)
               = Fin (- sin PI * 25)).
  { unfold Kinematics.coordinates. cbn [vy].
    rewrite unitParticle_progress_500, y_fin.
    cbn [arc amplitude offsetY unitParticle].
    replace (1 / 2 * 300 - 150) with 0 by lra. rewrite Rabs_R0.
    replace (1 / 2 * (2 * PI)) with PI by lra. f_equal. lra. }
  assert (Hs : - sin PI * 25 = 0) by (rewrite sin_PI; lra).
  split; [exact unitParticle_progress_500 | split; [exact Hx | split]].
  - rewrite Hx, shrinkFactor_fin, Rabs_R0. f_equal. lra.
  - split; [exact Hy | split; [exact Hs |]].
    assert (Ho : objects (worldWith meanDraws) !! geometry unitParticle
                 = Some (mkObject3D (mkVector3 0 0 0) (mkVector3 1 1 1)))
      by reflexivity.
    change (0%nat) with (geometry unitParticle) at 1.
    rewrite (moveParticle_position unitParticle 500 _ _ Ho).
    remember (Kinematics.coordinates unitParticle 500) as c.
    destruct c as [cx cy cz]. cbn [vx vy] in Hx, Hy.
    rewrite Hs in Hy. subst cx cy.
    assert (Hz : cz = vz (Kinematics.coordinates unitParticle 500))
      by (rewrite <- Heqc; reflexivity).
    rewrite Hz. reflexivity.
Qed.

(** ** The factory *)

(** The parameters [createParticle] samples, in terms of the draws. *)
Lemma createParticle_duration (w : World) :
  duration (fst (createParticle w))
  = SPEED + SPEED / 10 * normalDraws w (S (nextNormal w)).
Proof. reflexivity. Qed.

Lemma createParticle_startTime (w : World) :
  startTime (fst (createParticle w))
  = now w - (uniformDraws w (nextUniform w) * (SPEED - 0) + 0).
Proof. reflexivity. Qed.

(** The new particle points to the mesh the call has just made, the last of
    the store, which the call also adds to the scene. *)
Lemma createParticle_geometry (w : World) :
  geometry (fst (createParticle w)) = length (objects w) /\
  length (objects (snd (createParticle w))) = S (length (objects w)) /\
  scene (snd (createParticle w)) = scene w ++ [length (objects w)].
Proof.
  repeat split. cbn. rewrite length_alter, length_app. cbn. lia.
Qed.

(** C8, as stated, fails: a draw eleven deviations below the mean makes
    the duration [-2000]. *)
Lemma createParticle_duration_counterexample :
  duration (fst (createParticle (worldWith negativeDurationDraws))) = -2000 /\
  ~ duration (fst (createParticle (worldWith negativeDurationDraws))) > 0.
Proof.
  rewrite createParticle_duration. cbn. unfold SPEED. split; lra.
Qed.

(** C8, amended: the duration of the particle [createParticle] returns is
    [SPEED + SPEED / 10 * n], with [n] the normal deviate drawn for it; it is
    positive exactly when [n > -10]. *)
Theorem createParticle_duration_positive :
  forall w : World,
    let n := normalDraws w (S (nextNormal w)) in
    duration (fst (createParticle w)) = SPEED + SPEED / 10 * n /\
    (duration (fst (createParticle w)) > 0 <-> n > -10).
Proof.
  intros w n. rewrite createParticle_duration. fold n. unfold SPEED.
  split; [reflexivity | split; lra].
Qed.

(** C10, as stated, fails: a draw exactly ten deviations below the mean
    makes the duration 0, and then the remainder is [NaN], which is not
    [>= 0]. *)
Lemma createParticle_remainder_counterexample :
  uniform_ok (worldWith zeroDurationDraws) /\
  now (worldWith zeroDurationDraws) <= 2000 /\
  Kinematics.elapsed (fst (createParticle (worldWith zeroDurationDraws))) 2000 = NaN /\
  ~ JS.ge (Kinematics.elapsed (fst (createParticle (worldWith zeroDurationDraws))) 2000)
          (Fin 0).
Proof.
  assert (He : Kinematics.elapsed
                 (fst (createParticle (worldWith zeroDurationDraws))) 2000 = NaN).
  { apply elapsed_zero_duration. rewrite createParticle_duration.
    cbn. unfold SPEED. lra. }
  split; [intros k; cbn; lra | split; [cbn; lra | split; [exact He |]]].
  rewrite He. cbn. tauto.
Qed.

(** C10, amended: if [Math.random] answers in [0, 1), the particle that
    [createParticle] returns has [startTime <= now], the timestamp of its
    creation; so at every tick time [t >= now], [t - startTime >= 0], and the
    remainder computed by [moveParticle] is [>= 0] unless the duration is
    0, where it is [NaN]. *)
Theorem createParticle_starts_in_the_past (w : World) :
  uniform_ok w ->
  let p := fst (createParticle w) in
  startTime p <= now w /\
  forall t : R,
    now w <= t ->
    t - startTime p >= 0 /\
    (duration p <> 0 -> JS.ge (Kinematics.elapsed p t) (Fin 0)) /\
    (duration p = 0 -> Kinematics.elapsed p t = NaN).
Proof.
  intros Hu p.
  assert (Hs : startTime p <= now w).
  { unfold p. rewrite createParticle_startTime.
    pose proof (Hu (nextUniform w)). unfold SPEED. lra. }
  split; [exact Hs |].
  intros t Ht. split; [lra | split].
  - intros Hd. rewrite elapsed_fin by exact Hd. cbn [JS.ge].
    apply Rle_ge, fmod_sign_nonneg; [exact Hd | lra].
  - apply elapsed_zero_duration.
Qed.

Lemma createParticle_starts_in_the_past_witness :
  uniform_ok (worldWith meanDraws) /\
  now (worldWith meanDraws) <= 2000 /\
  duration (fst (createParticle (worldWith meanDraws))) <> 0 /\
  startTime (fst (createParticle (worldWith meanDraws)))
  <= now (worldWith meanDraws) /\
  JS.ge (Kinematics.elapsed (fst (createParticle (worldWith meanDraws))) 2000)
        (Fin 0).
Proof.
  assert (Hu : uniform_ok (worldWith meanDraws)) by (intros k; cbn; lra).
  assert (Ht : now (worldWith meanDraws) <= 2000) by (cbn; lra).
  assert (Hd : duration (fst (createParticle (worldWith meanDraws))) <> 0).
  { rewrite createParticle_duration. cbn. unfold SPEED, meanDraws. lra. }
  split; [exact Hu | split; [exact Ht | split; [exact Hd |]]].
  destruct (createParticle_starts_in_the_past (worldWith meanDraws) Hu)
    as [Hs Hl].
  split; [exact Hs |].
  exact (proj1 (proj2 (Hl 2000 Ht)) Hd).
Defined.

(** ** What [moveParticle] leaves alone *)

(** C9: [moveParticle] changes nothing of the world but the position of the
    particle's own mesh: the array of particles, and with it every field of
    every particle, is the same afterwards, as are the scene, the random
    source and the clock, every other mesh, and the scale of the mesh
    written to. *)
Theorem moveParticle_frame (p : Particle) (t : R) (w : World) :
  particles (moveParticle p t w) = particles w /\
  scene (moveParticle p t w) = scene w /\
  normalDraws (moveParticle p t w) = normalDraws w /\
  nextNormal (moveParticle p t w) = nextNormal w /\
  uniformDraws (moveParticle p t w) = uniformDraws w /\
  nextUniform (moveParticle p t w) = nextUniform w /\
  now (moveParticle p t w) = now w /\
  length (objects (moveParticle p t w)) = length (objects w) /\
  (forall r : ref,
     r <> geometry p ->
     objects (moveParticle p t w) !! r = objects w !! r) /\
  (forall o : Object3D,
     objects w !! geometry p = Some o ->
     objects (moveParticle p t w) !! geometry p
     = Some (mkObject3D (Kinematics.coordinates p t) (scale o))).
Proof.
  repeat split.
  - cbn. apply length_alter.
  - intros r Hr. cbn. apply list_lookup_alter_ne. congruence.
  - intros o Ho. apply moveParticle_position, Ho.
Qed.

Lemma moveParticle_frame_witness :
  objects (worldWith meanDraws) !! geometry unitParticle
  = Some (mkObject3D (mkVector3 0 0 0) (mkVector3 1 1 1)) /\
  objects (moveParticle unitParticle 250 (worldWith meanDraws))
    !! geometry unitParticle
  = Some (mkObject3D (Kinematics.coordinates unitParticle 250)
                     (mkVector3 1 1 1)).
Proof.
  assert (Ho : objects (worldWith meanDraws) !! geometry unitParticle
               = Some (mkObject3D (mkVector3 0 0 0) (mkVector3 1 1 1)))
    by reflexivity.
  split; [exact Ho |].
  destruct (moveParticle_frame unitParticle 250 (worldWith meanDraws))
    as (_ & _ & _ & _ & _ & _ & _ & _ & _ & Hw).
  exact (Hw _ Ho).
Defined.

(** ** The loops *)

Lemma draw_frame (time : R) (w : World) :
  particles (draw time w) = particles w /\
  length (objects (draw time w)) = length (objects w).
Proof.
  unfold draw. generalize (particles w) at 1 3 as ps. intros ps.
  revert w. induction ps as [|q ps IH]; intros w; [split; reflexivity|].
  cbn [fold_left]. destruct (IH (moveParticle q time w)) as [IHp IHo].
  rewrite IHp, IHo. split; [reflexivity |]. cbn. apply length_alter.
Qed.

Lemma spawn_count (n : nat) (w : World) :
  length (particles (snd (spawn n w))) = (length (particles w) + n)%nat.
Proof.
  revert w. induction n as [|n IH]; intros w.
  - cbn. lia.
  - cbn [spawn]. unfold bind at 1 2.
    destruct (createParticle w) as [p w1] eqn:Hc.
    assert (Hp : particles w1 = particles w).
    { change w1 with (snd (p, w1)). rewrite <- Hc. reflexivity. }
    cbn. rewrite IH. cbn. rewrite length_app, Hp. cbn. lia.
Qed.

(** After [startAnimation] on an empty array there are [NUM_PARTICLES]
    particles, and [draw] keeps that number. *)
Lemma startAnimation_count (time : R) (w : World) :
  particles w = [] ->
  length (particles (draw time (snd (startAnimation w)))) = NUM_PARTICLES.
Proof.
  intros He. rewrite (proj1 (draw_frame _ _)).
  unfold startAnimation. rewrite spawn_count, He. reflexivity.
Qed.

(** * Further properties *)

(** ** [rand] *)

Lemma rand_value (low high : R) (w : World) :
  fst (rand low high w) = uniformDraws w (nextUniform w) * (high - low) + low.
Proof. reflexivity. Qed.

(** X1: with [low < high], [rand low high] answers in [low, high), and it
    takes exactly one draw from [Math.random], leaving the rest of the world
    as it was. *)
Theorem rand_range (low high : R) (w : World) :
  uniform_ok w ->
  low < high ->
  low <= fst (rand low high w) < high /\
  snd (rand low high w)
  = mkWorld (objects w) (scene w) (particles w) (normalDraws w)
            (nextNormal w) (uniformDraws w) (S (nextUniform w)) (now w).
Proof.
  intros Hu Hl. split; [|reflexivity]. rewrite rand_value.
  pose proof (Hu (nextUniform w)) as H.
  remember (uniformDraws w (nextUniform w)) as u. nra.
Qed.

Lemma rand_range_witness :
  uniform_ok twoMeshWorld /\
  10 < 30 /\
  10 <= fst (rand 10 30 twoMeshWorld) < 30.
Proof.
  assert (Hu : uniform_ok twoMeshWorld) by (intros k; cbn; lra).
  assert (Hl : 10 < 30) by lra.
  split; [exact Hu | split; [exact Hl |]].
  exact (proj1 (rand_range 10 30 twoMeshWorld Hu Hl)).
Defined.

(** X2: [rand] does not order its bounds: with [high < low] the answer lies
    in (high, low], and with [high = low] it is that number. *)
Theorem rand_reversed_bounds (low high : R) (w : World) :
  uniform_ok w ->
  high <= low ->
  (high < low -> high < fst (rand low high w) <= low) /\
  (high = low -> fst (rand low high w) = low).
Proof.
  intros Hu Hl. rewrite rand_value.
  pose proof (Hu (nextUniform w)) as H.
  remember (uniformDraws w (nextUniform w)) as u.
  split; intros Hc; [nra | subst high; lra].
Qed.

Lemma rand_reversed_bounds_witness :
  uniform_ok twoMeshWorld /\
  10 <= 30 /\
  10 < fst (rand 30 10 twoMeshWorld) <= 30.
Proof.
  assert (Hu : uniform_ok twoMeshWorld) by (intros k; cbn; lra).
  assert (Hl : 10 <= 30) by lra.
  split; [exact Hu | split; [exact Hl |]].
  exact (proj1 (rand_reversed_bounds 30 10 twoMeshWorld Hu Hl) ltac:(lra)).
Defined.

(** ** [createParticle] *)

(** X3: the start time of a new particle lies less than one base cycle
    before its creation: [now - SPEED < startTime <= now]. *)
Theorem createParticle_startTime_window (w : World) :
  uniform_ok w ->
  now w - SPEED < startTime (fst (createParticle w)) <= now w.
Proof.
  intros Hu. rewrite createParticle_startTime.
  pose proof (Hu (nextUniform w)) as H. unfold SPEED.
  remember (uniformDraws w (nextUniform w)) as u. lra.
Qed.

Lemma createParticle_startTime_window_witness :
  uniform_ok twoMeshWorld /\
  now twoMeshWorld - SPEED
  < startTime (fst (createParticle twoMeshWorld)) <= now twoMeshWorld.
Proof.
  assert (Hu : uniform_ok twoMeshWorld) by (intros k; cbn; lra).
  split; [exact Hu |].
  exact (createParticle_startTime_window twoMeshWorld Hu).
Defined.

(** What a call of [createParticle] leaves behind. *)
Lemma createParticle_world (w : World) :
  snd (createParticle w)
  = let s : number := Fin (7 / 10 + 2 / 5 * normalDraws w (nextNormal w)) in
    mkWorld (objects w ++ [mkObject3D (mkVector3 0 0 0) (mkVector3 s s s)])
            (scene w ++ [length (objects w)])
            (particles w)
            (normalDraws w) (6 + nextNormal w)
            (uniformDraws w) (S (nextUniform w))
            (now w).
Proof.
  cbn. f_equal.
  replace (length (objects w)) with (length (objects w) + 0)%nat at 1 by lia.
  rewrite alter_app_r. reflexivity.
Qed.

(** X4: [createParticle] adds exactly one mesh, at the end of the store, at
    the origin and scaled alike on the three axes by the first normal draw;
    it adds the reference of that mesh to the scene and returns a particle
    that points to it.  The meshes and the particle array that were there are
    untouched, and six normal draws and one uniform draw are used up. *)
Theorem createParticle_effect (w : World) :
  let s : number := Fin (7 / 10 + 2 / 5 * normalDraws w (nextNormal w)) in
  geometry (fst (createParticle w)) = length (objects w) /\
  objects (snd (createParticle w))
  = objects w ++ [mkObject3D (mkVector3 0 0 0) (mkVector3 s s s)] /\
  scene (snd (createParticle w)) = scene w ++ [length (objects w)] /\
  particles (snd (createParticle w)) = particles w /\
  nextNormal (snd (createParticle w)) = (6 + nextNormal w)%nat /\
  nextUniform (snd (createParticle w)) = S (nextUniform w) /\
  normalDraws (snd (createParticle w)) = normalDraws w /\
  uniformDraws (snd (createParticle w)) = uniformDraws w /\
  now (snd (createParticle w)) = now w.
Proof.
  intros s. rewrite createParticle_world. repeat split.
Qed.

(** ** The sweep of [moveParticle] *)

(** Under a negative divisor the remainder of a non-negative dividend stays
    below the size of the divisor. *)
Lemma fmod_nonneg_negative_divisor (x d : R) :
  d < 0 -> 0 <= x -> 0 <= fmod x d < - d.
Proof.
  intros Hd Hx. split; [apply fmod_sign_nonneg; lra|]. unfold fmod.
  pose proof (quotient_scale x d ltac:(lra)) as Hs.
  assert (Hq : x / d <= 0) by (remember (x / d) as q; nra).
  destruct (Req_dec_T (x / d) 0) as [E|N].
  - rewrite E in *. rewrite (trunc_eq_nonneg 0 0); simpl; lra.
  - pose proof (trunc_neg (x / d) ltac:(lra)) as Ht.
    remember (x / d) as q. remember (IZR (trunc q)) as n. nra.
Qed.

(** Whole periods in front of a dividend inside [0, d) drop out. *)
Lemma fmod_cycle (y d : R) (k : nat) :
  0 < d -> 0 <= y < d -> fmod (y + INR k * d) d = y.
Proof.
  intros Hd Hy. induction k as [|k IH].
  - cbn [INR]. replace (y + 0 * d) with y by lra.
    apply fmod_small_nonneg, Hy.
  - rewrite S_INR.
    replace (y + (INR k + 1) * d) with (y + INR k * d + d) by lra.
    rewrite fmod_shift_nonneg; [exact IH | exact Hd |].
    pose proof (pos_INR k). nra.
Qed.

(** The x coordinate during the cycle number [k] after the start. *)
Lemma x_in_cycle (p : Particle) (t : R) (k : nat) :
  duration p > 0 ->
  startTime p + INR k * duration p <= t
  < startTime p + (INR k + 1) * duration p ->
  vx (Kinematics.coordinates p t)
  = Fin (150 - 300 * ((t - startTime p - INR k * duration p) / duration p)).
Proof.
  intros Hd Ht. unfold Kinematics.coordinates. cbn [vx].
  rewrite progress_fin, x_fin by lra.
  replace (t - startTime p)
    with (t - startTime p - INR k * duration p + INR k * duration p) at 1
    by lra.
  rewrite fmod_cycle by lra. f_equal. lra.
Qed.

(** X5: from its start time on, a particle of positive duration has a
    progress in (0, 1] and an x coordinate in (-150, 150]. *)
Theorem sweep_range (p : Particle) (t : R) :
  duration p > 0 ->
  startTime p <= t ->
  exists g x : R,
    Kinematics.progress p t = Fin g /\ 0 < g <= 1 /\
    vx (Kinematics.coordinates p t) = Fin x /\ -150 < x <= 150.
Proof.
  intros Hd Ht.
  pose proof (fmod_nonneg (t - startTime p) (duration p) ltac:(lra) ltac:(lra))
    as Hf.
  pose proof (quotient_scale (fmod (t - startTime p) (duration p))
                (duration p) ltac:(lra)) as Hs.
  remember (fmod (t - startTime p) (duration p) / duration p) as q.
  assert (Hq : 0 <= q < 1) by nra.
  exists (1 - q), ((1 - q) * 300 - 150).
  unfold Kinematics.coordinates. cbn [vx].
  rewrite progress_fin, x_fin, <- Heqq by lra.
  repeat split; lra.
Qed.

Lemma sweep_range_witness :
  duration secondParticle > 0 /\
  startTime secondParticle <= 5000 /\
  exists g x : R,
    Kinematics.progress secondParticle 5000 = Fin g /\ 0 < g <= 1 /\
    vx (Kinematics.coordinates secondParticle 5000) = Fin x /\ -150 < x <= 150.
Proof.
  assert (Hd : duration secondParticle > 0) by (cbn; lra).
  assert (Ht : startTime secondParticle <= 5000) by (cbn; lra).
  split; [exact Hd | split; [exact Ht |]].
  exact (sweep_range secondParticle 5000 Hd Ht).
Defined.

(** X6: during the cycle number [k] after the start, x falls linearly from
    150: [x = 150 - 300 * (t - startTime - k * duration) / duration]. *)
Theorem sweep_linear (p : Particle) (t : R) (k : nat) :
  duration p > 0 ->
  startTime p + INR k * duration p <= t
  < startTime p + (INR k + 1) * duration p ->
  vx (Kinematics.coordinates p t)
  = Fin (150 - 300 * ((t - startTime p - INR k * duration p) / duration p)).
Proof. apply x_in_cycle. Qed.

Lemma sweep_linear_witness :
  duration secondParticle > 0 /\
  startTime secondParticle + INR 2 * duration secondParticle <= 4600
  < startTime secondParticle + (INR 2 + 1) * duration secondParticle /\
  vx (Kinematics.coordinates secondParticle 4600)
  = Fin (150 - 300 * ((4600 - startTime secondParticle
                       - INR 2 * duration secondParticle)
                      / duration secondParticle)).
Proof.
  assert (Hd : duration secondParticle > 0) by (cbn; lra).
  assert (Ht : startTime secondParticle + INR 2 * duration secondParticle
               <= 4600
               < startTime secondParticle
                 + (INR 2 + 1) * duration secondParticle)
    by (cbn; lra).
  split; [exact Hd | split; [exact Ht |]].
  exact (sweep_linear secondParticle 4600 2 Hd Ht).
Defined.

(** X7: within one cycle the particle travels from right to left: at the
    later of two times of the same cycle its x coordinate is smaller. *)
Theorem sweep_right_to_left (p : Particle) (t1 t2 : R) (k : nat) :
  duration p > 0 ->
  startTime p + INR k * duration p <= t1 ->
  t1 < t2 ->
  t2 < startTime p + (INR k + 1) * duration p ->
  JS.lt (vx (Kinematics.coordinates p t2)) (vx (Kinematics.coordinates p t1)).
Proof.
  intros Hd H1 H12 H2.
  rewrite (x_in_cycle p t1 k), (x_in_cycle p t2 k) by lra. cbn [JS.lt].
  pose proof (quotient_scale (t1 - startTime p - INR k * duration p)
                (duration p) ltac:(lra)) as E1.
  pose proof (quotient_scale (t2 - startTime p - INR k * duration p)
                (duration p) ltac:(lra)) as E2.
  remember ((t1 - startTime p - INR k * duration p) / duration p) as q1.
  remember ((t2 - startTime p - INR k * duration p) / duration p) as q2.
  nra.
Qed.

Lemma sweep_right_to_left_witness :
  duration secondParticle > 0 /\
  startTime secondParticle + INR 2 * duration secondParticle <= 4200 /\
  4200 < 4600 /\
  4600 < startTime secondParticle + (INR 2 + 1) * duration secondParticle /\
  JS.lt (vx (Kinematics.coordinates secondParticle 4600))
        (vx (Kinematics.coordinates secondParticle 4200)).
Proof.
  assert (Hd : duration secondParticle > 0) by (cbn; lra).
  assert (H1 : startTime secondParticle + INR 2 * duration secondParticle
               <= 4200) by (cbn; lra).
  assert (H12 : 4200 < 4600) by lra.
  assert (H2 : 4600 < startTime secondParticle
                      + (INR 2 + 1) * duration secondParticle) by (cbn; lra).
  split; [exact Hd | split; [exact H1 | split; [exact H12 | split;
    [exact H2 |]]]].
  exact (sweep_right_to_left secondParticle 4200 4600 2 Hd H1 H12 H2).
Defined.

(** X8: a particle of duration 0 is written to [NaN] in x and y at every
    time; its z is still written. *)
Theorem zero_duration_coordinates (p : Particle) (t : R) :
  duration p = 0 ->
  Kinematics.coordinates p t = mkVector3 NaN NaN (z p).
Proof.
  intros Hd. unfold Kinematics.coordinates, Kinematics.progress.
  rewrite elapsed_zero_duration by exact Hd. reflexivity.
Qed.

Lemma zero_duration_coordinates_witness :
  duration stillParticle = 0 /\
  Kinematics.coordinates stillParticle 40 = mkVector3 NaN NaN (z stillParticle).
Proof.
  assert (Hd : duration stillParticle = 0) by reflexivity.
  split; [exact Hd |].
  exact (zero_duration_coordinates stillParticle 40 Hd).
Defined.

(** X9: a particle of negative duration is, from its start time on, kept to
    the right of the sweep: its x coordinate lies in [150, 450). *)
Theorem negative_duration_sweep (p : Particle) (t : R) :
  duration p < 0 ->
  startTime p <= t ->
  exists x : R,
    vx (Kinematics.coordinates p t) = Fin x /\ 150 <= x < 450.
Proof.
  intros Hd Ht.
  pose proof (fmod_nonneg_negative_divisor (t - startTime p) (duration p)
                Hd ltac:(lra)) as Hf.
  pose proof (quotient_scale (fmod (t - startTime p) (duration p))
                (duration p) ltac:(lra)) as Hs.
  remember (fmod (t - startTime p) (duration p) / duration p) as q.
  assert (Hq : -1 < q <= 0) by nra.
  exists ((1 - q) * 300 - 150).
  unfold Kinematics.coordinates. cbn [vx].
  rewrite progress_fin, x_fin, <- Heqq by lra.
  split; [reflexivity | lra].
Qed.

Lemma negative_duration_sweep_witness :
  duration backwardParticle < 0 /\
  startTime backwardParticle <= 300 /\
  exists x : R,
    vx (Kinematics.coordinates backwardParticle 300) = Fin x /\ 150 <= x < 450.
Proof.
  assert (Hd : duration backwardParticle < 0) by (cbn; lra).
  assert (Ht : startTime backwardParticle <= 300) by (cbn; lra).
  split; [exact Hd | split; [exact Ht |]].
  exact (negative_duration_sweep backwardParticle 300 Hd Ht).
Defined.

(** ** The taper and the wave *)

(** X10: at a real x the taper is a real that is at most 1, is non-negative
    exactly within 90 of the centre, is at least -16/9 within 150 of it, and
    is the same at [-x] as at [x]. *)
Theorem shrinkFactor_bounds (x : R) :
  exists v : R,
    Kinematics.shrinkFactor (Fin x) = Fin v /\
    v <= 1 /\
    (0 <= v <-> Rabs x <= 90) /\
    (Rabs x <= 150 -> - 16 / 9 <= v) /\
    Kinematics.shrinkFactor (Fin (- x)) = Fin v.
Proof.
  exists (1 - (Rabs x / 90) ^ 2).
  rewrite !shrinkFactor_fin, Rabs_Ropp.
  pose proof (Rabs_pos x) as Ha. remember (Rabs x) as a.
  repeat split; try intros H; nra.
Qed.

(** The height is bounded through the taper, for every real progress. *)
Lemma y_bound (p : Particle) (g : R) :
  exists v : R,
    Kinematics.y p (Fin g) = Fin v /\
    Rabs v <= Rabs (1 - (Rabs (g * 300 - 150) / 90) ^ 2)
              * (Rabs (amplitude p) + Rabs (offsetY p)).
Proof.
  eexists. split; [apply y_fin|].
  remember (1 - (Rabs (g * 300 - 150) / 90) ^ 2) as k.
  pose proof (SIN_bound (g * arc p)) as Hs.
  assert (Hsin : Rabs (sin (g * arc p)) <= 1) by (apply Rabs_le; lra).
  eapply Rle_trans; [apply Rabs_triang|].
  rewrite !Rabs_mult, Rabs_Ropp.
  pose proof (Rabs_pos k). pose proof (Rabs_pos (amplitude p)).
  pose proof (Rabs_pos (offsetY p)). pose proof (Rabs_pos (sin (g * arc p))).
  remember (Rabs (sin (g * arc p))) as s. remember (Rabs k) as ak.
  remember (Rabs (amplitude p)) as aa. remember (Rabs (offsetY p)) as ao.
  assert (Hm : 0 <= aa * ak) by (apply Rmult_le_pos; assumption).
  clear - Hsin Hm. nra.
Qed.

(** X11: from its start time on, the height of a particle of positive
    duration is a real within [16/9 * (|amplitude| + |offsetY|)] of zero. *)
Theorem wave_envelope (p : Particle) (t : R) :
  duration p > 0 ->
  startTime p <= t ->
  exists v : R,
    vy (Kinematics.coordinates p t) = Fin v /\
    Rabs v <= 16 / 9 * (Rabs (amplitude p) + Rabs (offsetY p)).
Proof.
  intros Hd Ht.
  pose proof (fmod_nonneg (t - startTime p) (duration p) ltac:(lra) ltac:(lra))
    as Hf.
  pose proof (quotient_scale (fmod (t - startTime p) (duration p))
                (duration p) ltac:(lra)) as Hs.
  remember (fmod (t - startTime p) (duration p) / duration p) as q.
  assert (Hq : 0 <= q < 1) by nra.
  unfold Kinematics.coordinates. cbn [vy].
  rewrite progress_fin, <- Heqq by lra.
  destruct (y_bound p (1 - q)) as (v & Hv & Hb).
  exists v. split; [exact Hv|].
  eapply Rle_trans; [exact Hb|].
  apply Rmult_le_compat_r.
  - pose proof (Rabs_pos (amplitude p)). pose proof (Rabs_pos (offsetY p)). lra.
  - assert (Hx : Rabs ((1 - q) * 300 - 150) <= 150) by (apply Rabs_le; lra).
    pose proof (Rabs_pos ((1 - q) * 300 - 150)) as Hp.
    remember (Rabs ((1 - q) * 300 - 150)) as a.
    apply Rabs_le. nra.
Qed.

Lemma wave_envelope_witness :
  duration secondParticle > 0 /\
  startTime secondParticle <= 5000 /\
  exists v : R,
    vy (Kinematics.coordinates secondParticle 5000) = Fin v /\
    Rabs v <= 16 / 9 * (Rabs (amplitude secondParticle)
                        + Rabs (offsetY secondParticle)).
Proof.
  assert (Hd : duration secondParticle > 0) by (cbn; lra).
  assert (Ht : startTime secondParticle <= 5000) by (cbn; lra).
  split; [exact Hd | split; [exact Ht |]].
  exact (wave_envelope secondParticle 5000 Hd Ht).
Defined.

(** X12: one fifth and four fifths into its first cycle every particle of
    positive duration is on the axis, at x = 90 and x = -90, whatever its
    amplitude, offset and arc: the taper is zero there. *)
Theorem wave_pinch (p : Particle) :
  duration p > 0 ->
  Kinematics.coordinates p (startTime p + duration p / 5)
  = mkVector3 90 0 (z p) /\
  Kinematics.coordinates p (startTime p + 4 * duration p / 5)
  = mkVector3 (-90) 0 (z p).
Proof.
  intros Hd. unfold Kinematics.coordinates.
  rewrite !progress_fin, !x_fin, !y_fin by lra.
  rewrite !fmod_small_nonneg by lra.
  replace ((1 - (startTime p + duration p / 5 - startTime p) / duration p)
           * 300 - 150) with 90 by (field; lra).
  replace ((1 - (startTime p + 4 * duration p / 5 - startTime p) / duration p)
           * 300 - 150) with (-90) by (field; lra).
  rewrite (Rabs_right 90), (Rabs_left (-90)) by lra.
  split; f_equal; f_equal; lra.
Qed.

Lemma wave_pinch_witness :
  duration secondParticle > 0 /\
  Kinematics.coordinates secondParticle
    (startTime secondParticle + duration secondParticle / 5)
  = mkVector3 90 0 (z secondParticle).
Proof.
  assert (Hd : duration secondParticle > 0) by (cbn; lra).
  split; [exact Hd |].
  exact (proj1 (wave_pinch secondParticle Hd)).
Defined.

(** ** Successive calls of [moveParticle] *)

Lemma position_set_overwrite (r : nat) (a b c a' b' c' : number) (w : World) :
  position_set r a b c (position_set r a' b' c' w) = position_set r a b c w.
Proof.
  unfold position_set. cbn [objects scene particles normalDraws nextNormal
                            uniformDraws nextUniform now].
  f_equal. rewrite list_alter_alter_eq. apply list_alter_ext; reflexivity.
Qed.

Lemma position_set_commute (r r' : nat) (a b c a' b' c' : number) (w : World) :
  r <> r' ->
  position_set r a b c (position_set r' a' b' c' w)
  = position_set r' a' b' c' (position_set r a b c w).
Proof.
  intros Hr. unfold position_set.
  cbn [objects scene particles normalDraws nextNormal
       uniformDraws nextUniform now].
  f_equal. apply list_alter_alter_ne, Hr.
Qed.

(** X13: the evaluator keeps no memory: a call of [moveParticle] wipes out
    an earlier call on a particle with the same mesh, so the world after it
    does not depend on any earlier time. *)
Theorem moveParticle_overwrites (p q : Particle) (t t' : R) (w : World) :
  geometry p = geometry q ->
  moveParticle p t (moveParticle q t' w) = moveParticle p t w.
Proof.
  intros Hg. rewrite !moveParticle_coordinates, <- Hg.
  apply position_set_overwrite.
Qed.

Lemma moveParticle_overwrites_witness :
  geometry unitParticle = geometry lateParticle /\
  moveParticle unitParticle 700 (moveParticle lateParticle 200 twoMeshWorld)
  = moveParticle unitParticle 700 twoMeshWorld.
Proof.
  assert (Hg : geometry unitParticle = geometry lateParticle) by reflexivity.
  split; [exact Hg |].
  exact (moveParticle_overwrites unitParticle lateParticle 700 200
           twoMeshWorld Hg).
Defined.

(** X14: calls of [moveParticle] on particles with different meshes can be
    swapped: the order in which the particles of a frame are moved does not
    matter. *)
Theorem moveParticle_commutes (p q : Particle) (t t' : R) (w : World) :
  geometry p <> geometry q ->
  moveParticle p t (moveParticle q t' w)
  = moveParticle q t' (moveParticle p t w).
Proof.
  intros Hg. rewrite !moveParticle_coordinates.
  apply position_set_commute, Hg.
Qed.

Lemma moveParticle_commutes_witness :
  geometry unitParticle <> geometry secondParticle /\
  moveParticle unitParticle 700 (moveParticle secondParticle 200 twoMeshWorld)
  = moveParticle secondParticle 200 (moveParticle unitParticle 700 twoMeshWorld).
Proof.
  assert (Hg : geometry unitParticle <> geometry secondParticle)
    by (cbn; lia).
  split; [exact Hg |].
  exact (moveParticle_commutes unitParticle secondParticle 700 200
           twoMeshWorld Hg).
Defined.

(** ** The frame loop [draw] *)

Lemma draw_moveAll (time : R) (w : World) :
  draw time w = moveAll time (particles w) w.
Proof. reflexivity. Qed.

Lemma same_but_positions_refl (refs : list nat) (w : World) :
  same_but_positions refs w w.
Proof. repeat split. Qed.

Lemma same_but_positions_trans (r1 r2 r3 : list nat) (a b c : World) :
  (forall r : nat, r ∉ r3 -> (r ∉ r1) /\ (r ∉ r2)) ->
  same_but_positions r1 a b ->
  same_but_positions r2 b c ->
  same_but_positions r3 a c.
Proof.
  intros Hr (A1 & A2 & A3 & A4 & A5 & A6 & A7 & A8 & A9 & A10)
         (B1 & B2 & B3 & B4 & B5 & B6 & B7 & B8 & B9 & B10).
  repeat split; try congruence.
  intros r Hn. destruct (Hr r Hn) as [H1 H2].
  rewrite A10 by exact H1. apply B10, H2.
Qed.

(** Two worlds that differ in no position are equal. *)
Lemma same_but_positions_nil (w1 w2 : World) :
  same_but_positions [] w1 w2 -> w1 = w2.
Proof.
  intros (A1 & A2 & A3 & A4 & A5 & A6 & A7 & A8 & A9 & A10).
  destruct w1, w2. cbn in *. subst. f_equal.
  apply list_eq. intros i. apply A10. apply not_elem_of_nil.
Qed.

(** One call changes at most the position behind the particle's mesh. *)
Lemma moveParticle_same_but_positions (p : Particle) (t : R) (w : World) :
  same_but_positions [geometry p] (moveParticle p t w) w.
Proof.
  repeat split.
  - cbn. apply length_alter.
  - intros r. cbn. rewrite list_lookup_alter.
    destruct (decide (geometry p = r)) as [<-|_]; [|reflexivity].
    destruct (objects w !! geometry p); reflexivity.
  - intros r Hr. cbn. apply list_lookup_alter_ne.
    intros E. apply Hr. apply list_elem_of_singleton. congruence.
Qed.

(** After the same call, two worlds that differed at most in positions
    agree on the position written. *)
Lemma moveParticle_agree (p : Particle) (t : R) (refs : list nat)
    (w1 w2 : World) :
  same_but_positions (geometry p :: refs) w1 w2 ->
  same_but_positions refs (moveParticle p t w1) (moveParticle p t w2).
Proof.
  intros (A1 & A2 & A3 & A4 & A5 & A6 & A7 & A8 & A9 & A10).
  repeat split; try assumption.
  - cbn. rewrite !length_alter. exact A8.
  - intros r. cbn. rewrite !list_lookup_alter.
    destruct (decide (geometry p = r)) as [<-|_]; [|apply A9].
    pose proof (A9 (geometry p)) as H.
    destruct (objects w1 !! geometry p), (objects w2 !! geometry p);
      cbn in *; congruence.
  - intros r Hr. cbn. rewrite !list_lookup_alter.
    destruct (decide (geometry p = r)) as [<-|Hn].
    + pose proof (A9 (geometry p)) as H.
      destruct (objects w1 !! geometry p) as [o1|],
               (objects w2 !! geometry p) as [o2|];
        cbn in *; try congruence.
      injection H as H. rewrite H. reflexivity.
    + apply A10. intros [E|Hin]%elem_of_cons; [congruence | contradiction].
Qed.

Lemma moveAll_agree (t : R) (ps : list Particle) (w1 w2 : World) :
  same_but_positions (geometry <$> ps) w1 w2 ->
  moveAll t ps w1 = moveAll t ps w2.
Proof.
  revert w1 w2. induction ps as [|p ps IH]; intros w1 w2 H.
  - apply same_but_positions_nil, H.
  - cbn [moveAll fold_left]. apply IH, moveParticle_agree, H.
Qed.

Lemma moveAll_same_but_positions (t : R) (ps : list Particle) (w : World) :
  same_but_positions (geometry <$> ps) (moveAll t ps w) w.
Proof.
  revert w. induction ps as [|p ps IH]; intros w.
  - apply same_but_positions_refl.
  - cbn [moveAll fold_left].
    apply (same_but_positions_trans (geometry <$> ps) [geometry p] _ _
             (moveParticle p t w)).
    + intros r Hr. rewrite fmap_cons in Hr.
      split; intros Hin; apply Hr.
      * apply elem_of_cons. right. exact Hin.
      * apply list_elem_of_singleton in Hin. subst. apply elem_of_cons.
        left. reflexivity.
    + apply IH.
    + apply moveParticle_same_but_positions.
Qed.

(** With pairwise different meshes, every particle of the list finds its
    mesh where the loop has put it. *)
Lemma moveAll_position (t : R) (ps : list Particle) (w : World)
    (p : Particle) (o : Object3D) :
  NoDup (geometry <$> ps) ->
  p ∈ ps ->
  objects w !! geometry p = Some o ->
  objects (moveAll t ps w) !! geometry p
  = Some (mkObject3D (Kinematics.coordinates p t) (scale o)).
Proof.
  revert w. induction ps as [|q ps IH]; intros w Hnd Hin Ho.
  - apply elem_of_nil in Hin. contradiction.
  - rewrite fmap_cons in Hnd. apply NoDup_cons in Hnd as [Hq Hnd].
    cbn [moveAll fold_left].
    destruct (decide (geometry p ∈ geometry <$> ps)) as [Hp|Hp].
    + apply elem_of_cons in Hin as [->|Hin]; [contradiction|].
      apply IH; [exact Hnd | exact Hin |].
      cbn. rewrite list_lookup_alter_ne; [exact Ho|]. congruence.
    + apply elem_of_cons in Hin as [->|Hin].
      * destruct (moveAll_same_but_positions t ps (moveParticle q t w))
          as (_ & _ & _ & _ & _ & _ & _ & _ & _ & H).
        change (fold_left (fun w' p => moveParticle p t w') ps
                  (moveParticle q t w))
          with (moveAll t ps (moveParticle q t w)).
        rewrite (H _ Hp). apply moveParticle_position, Ho.
      * exfalso. apply Hp. apply list_elem_of_fmap_2, Hin.
Qed.

(** X15: [draw] keeps no memory either: the world after a frame does not
    depend on the frames drawn before it. *)
Theorem draw_overwrites (t t' : R) (w : World) :
  draw t (draw t' w) = draw t w.
Proof.
  rewrite (draw_moveAll t (draw t' w)), (proj1 (draw_frame t' w)).
  rewrite (draw_moveAll t w), (draw_moveAll t' w).
  apply moveAll_agree, moveAll_same_but_positions.
Qed.

(** X16: [draw] changes nothing but positions of meshes that particles of
    the array point to: scene, array, random source and clock, the number of
    meshes, every scale, and every mesh no particle points to stay as they
    were. *)
Theorem draw_changes_positions_only (t : R) (w : World) :
  same_but_positions (geometry <$> particles w) (draw t w) w.
Proof. rewrite draw_moveAll. apply moveAll_same_but_positions. Qed.

(** X17: when the particles own their meshes exclusively, after [draw]
    every particle of the array has its mesh at the coordinates computed
    for it at the time of the frame, with the scale the mesh had. *)
Theorem draw_positions (t : R) (w : World) (p : Particle) :
  exclusive w ->
  p ∈ particles w ->
  exists o : Object3D,
    objects w !! geometry p = Some o /\
    objects (draw t w) !! geometry p
    = Some (mkObject3D (Kinematics.coordinates p t) (scale o)).
Proof.
  intros [Hnd Hv] Hin.
  assert (Hl : (geometry p < length (objects w))%nat).
  { rewrite Forall_forall in Hv. apply Hv, Hin. }
  apply lookup_lt_is_Some_2 in Hl as [o Ho].
  exists o. split; [exact Ho|].
  rewrite draw_moveAll. apply moveAll_position; assumption.
Qed.

Lemma twoMeshWorld_exclusive : exclusive twoMeshWorld.
Proof.
  split.
  - cbn. apply NoDup_cons. split.
    + intros H%list_elem_of_singleton. discriminate.
    + apply NoDup_singleton.
  - cbn. repeat constructor.
Qed.

Lemma draw_positions_witness :
  exclusive twoMeshWorld /\
  secondParticle ∈ particles twoMeshWorld /\
  exists o : Object3D,
    objects twoMeshWorld !! geometry secondParticle = Some o /\
    objects (draw 700 twoMeshWorld) !! geometry secondParticle
    = Some (mkObject3D (Kinematics.coordinates secondParticle 700) (scale o)).
Proof.
  assert (Hin : secondParticle ∈ particles twoMeshWorld).
  { cbn. apply elem_of_cons. right. apply elem_of_cons. left. reflexivity. }
  split; [exact twoMeshWorld_exclusive | split; [exact Hin |]].
  exact (draw_positions 700 twoMeshWorld secondParticle
           twoMeshWorld_exclusive Hin).
Defined.

(** X18: with pairwise different meshes the loop may take the particles in
    any order. *)
Theorem moveAll_any_order (t : R) (ps ps' : list Particle) (w : World) :
  NoDup (geometry <$> ps) ->
  ps ≡ₚ ps' ->
  moveAll t ps w = moveAll t ps' w.
Proof.
  intros Hnd Hp. revert w Hnd.
  induction Hp as [|x l l' Hp IH|x y l|l l' l'' Hp1 IH1 Hp2 IH2];
    intros w Hnd.
  - reflexivity.
  - cbn [moveAll fold_left]. apply IH.
    rewrite fmap_cons in Hnd. apply NoDup_cons in Hnd. tauto.
  - cbn [moveAll fold_left]. f_equal.
    rewrite !moveParticle_coordinates. apply position_set_commute.
    rewrite !fmap_cons in Hnd. apply NoDup_cons in Hnd as [Hy _].
    intros E. apply Hy. rewrite <- E. apply elem_of_cons. left. reflexivity.
  - rewrite IH1 by exact Hnd. apply IH2.
    rewrite <- Hp1. exact Hnd.
Qed.

Lemma moveAll_any_order_witness :
  NoDup (geometry <$> [unitParticle; secondParticle]) /\
  [unitParticle; secondParticle] ≡ₚ [secondParticle; unitParticle] /\
  moveAll 700 [unitParticle; secondParticle] twoMeshWorld
  = moveAll 700 [secondParticle; unitParticle] twoMeshWorld.
Proof.
  assert (Hnd : NoDup (geometry <$> [unitParticle; secondParticle]))
    by exact (proj1 twoMeshWorld_exclusive).
  assert (Hp : [unitParticle; secondParticle]
               ≡ₚ [secondParticle; unitParticle]) by apply perm_swap.
  split; [exact Hnd | split; [exact Hp |]].
  exact (moveAll_any_order 700 _ _ twoMeshWorld Hnd Hp).
Defined.

(** ** The start-up loop *)

Lemma spawn_S (n : nat) (w : World) :
  spawn (S n) w = spawn n (snd (spawnOne w)).
Proof.
  cbn [spawn]. unfold spawnOne, bind.
  destruct (createParticle w) as [p w1]. reflexivity.
Qed.

Lemma spawnOne_world (w : World) :
  snd (spawnOne w)
  = let s : number := Fin (7 / 10 + 2 / 5 * normalDraws w (nextNormal w)) in
    mkWorld (objects w ++ [mkObject3D (mkVector3 0 0 0) (mkVector3 s s s)])
            (scene w ++ [length (objects w)])
            (particles w ++ [fst (createParticle w)])
            (normalDraws w) (6 + nextNormal w)
            (uniformDraws w) (S (nextUniform w))
            (now w).
Proof.
  unfold spawnOne, bind.
  pose proof (createParticle_world w) as Hw.
  destruct (createParticle w) as [p w1]. cbn [fst snd] in *.
  rewrite Hw. reflexivity.
Qed.

Lemma spawn_sizes (n : nat) (w : World) :
  length (particles (snd (spawn n w))) = (length (particles w) + n)%nat /\
  length (objects (snd (spawn n w))) = (length (objects w) + n)%nat /\
  length (scene (snd (spawn n w))) = (length (scene w) + n)%nat /\
  nextNormal (snd (spawn n w)) = (nextNormal w + 6 * n)%nat /\
  nextUniform (snd (spawn n w)) = (nextUniform w + n)%nat /\
  normalDraws (snd (spawn n w)) = normalDraws w /\
  uniformDraws (snd (spawn n w)) = uniformDraws w /\
  now (snd (spawn n w)) = now w.
Proof.
  revert w. induction n as [|n IH]; intros w.
  - cbn. repeat split; lia.
  - rewrite spawn_S.
    destruct (IH (snd (spawnOne w))) as (H1 & H2 & H3 & H4 & H5 & H6 & H7 & H8).
    rewrite H1, H2, H3, H4, H5, H6, H7, H8, spawnOne_world.
    cbn [particles objects scene nextNormal nextUniform normalDraws
         uniformDraws now].
    rewrite !length_app. cbn [length]. repeat split; lia.
Qed.

Lemma spawnOne_exclusive (w : World) :
  exclusive w -> exclusive (snd (spawnOne w)).
Proof.
  intros [Hnd Hv]. rewrite spawnOne_world.
  unfold exclusive. cbn [particles objects].
  rewrite Forall_forall in Hv. split.
  - rewrite fmap_app. apply NoDup_app. split; [exact Hnd | split].
    + intros r Hr Hin. cbn in Hin. apply list_elem_of_singleton in Hin.
      apply list_elem_of_fmap in Hr as (q & -> & Hq).
      specialize (Hv q Hq). lia.
    + cbn. apply NoDup_singleton.
  - apply Forall_app. split.
    + apply Forall_forall. intros q Hq. specialize (Hv q Hq).
      rewrite length_app. lia.
    + apply Forall_singleton. rewrite length_app. cbn. lia.
Qed.

Lemma spawn_exclusive (n : nat) (w : World) :
  exclusive w -> exclusive (snd (spawn n w)).
Proof.
  revert w. induction n as [|n IH]; intros w Hw; [exact Hw|].
  rewrite spawn_S. apply IH, spawnOne_exclusive, Hw.
Qed.

Lemma empty_exclusive (w : World) : particles w = [] -> exclusive w.
Proof.
  intros He. unfold exclusive. rewrite He. split; constructor.
Qed.

(** A property of the particles and of the scene that a new particle has
    and later particles do not take away holds for all after the loop. *)
Lemma spawn_Forall (P : World -> Particle -> Prop) (n : nat) (w : World) :
  (forall (w0 : World) (q : Particle), P w0 q -> P (snd (spawnOne w0)) q) ->
  (forall w0 : World, P (snd (spawnOne w0)) (fst (createParticle w0))) ->
  Forall (P w) (particles w) ->
  Forall (P (snd (spawn n w))) (particles (snd (spawn n w))).
Proof.
  intros Hkeep Hnew. revert w. induction n as [|n IH]; intros w Hw.
  - exact Hw.
  - rewrite spawn_S. apply IH.
    rewrite spawnOne_world at 2. cbn [particles].
    apply Forall_app. split.
    + eapply Forall_impl; [exact Hw|]. intros q. apply Hkeep.
    + apply Forall_singleton, Hnew.
Qed.

Lemma startAnimation_spawn : startAnimation = spawn NUM_PARTICLES.
Proof. reflexivity. Qed.

Lemma spawn_keeps (n : nat) (w : World) (q : Particle) :
  q ∈ particles w -> q ∈ particles (snd (spawn n w)).
Proof.
  revert w. induction n as [|n IH]; intros w Hq; [exact Hq|].
  rewrite spawn_S. apply IH. rewrite spawnOne_world. cbn [particles].
  apply elem_of_app. left. exact Hq.
Qed.

(** The first particle made is in the array at the end. *)
Lemma first_particle_spawned (w : World) :
  fst (createParticle w) ∈ particles (snd (startAnimation w)).
Proof.
  rewrite startAnimation_spawn.
  replace NUM_PARTICLES with (S (pred NUM_PARTICLES)) by reflexivity.
  rewrite spawn_S. apply spawn_keeps. rewrite spawnOne_world. cbn [particles].
  apply elem_of_app. right. apply list_elem_of_singleton. reflexivity.
Qed.

(** X19: [startAnimation] adds [NUM_PARTICLES] particles, as many meshes
    and as many scene entries, and uses up six normal draws and one uniform
    draw for each; started on an empty array it leaves [NUM_PARTICLES]
    particles, a number [draw] keeps. *)
Theorem startAnimation_sizes (w : World) :
  let w' := snd (startAnimation w) in
  length (particles w') = (length (particles w) + NUM_PARTICLES)%nat /\
  length (objects w') = (length (objects w) + NUM_PARTICLES)%nat /\
  length (scene w') = (length (scene w) + NUM_PARTICLES)%nat /\
  nextNormal w' = (nextNormal w + 6 * NUM_PARTICLES)%nat /\
  nextUniform w' = (nextUniform w + NUM_PARTICLES)%nat /\
  (particles w = [] ->
   forall t : R, length (particles (draw t w')) = NUM_PARTICLES).
Proof.
  intros w'.
  destruct (spawn_sizes NUM_PARTICLES w) as (H1 & H2 & H3 & H4 & H5 & _).
  rewrite <- startAnimation_spawn in H1, H2, H3, H4, H5.
  split; [exact H1 | split; [exact H2 | split; [exact H3 | split;
    [exact H4 | split; [exact H5 |]]]]].
  intros He t. rewrite (proj1 (draw_frame t w')).
  unfold w'. rewrite H1, He. reflexivity.
Qed.

(** X20: [startAnimation] gives every particle a mesh of its own: if the
    particles owned their meshes exclusively before, as they do when there
    are none, they do so afterwards. *)
Theorem startAnimation_exclusive (w : World) :
  exclusive w -> exclusive (snd (startAnimation w)).
Proof. rewrite startAnimation_spawn. apply spawn_exclusive. Qed.

Lemma startAnimation_exclusive_witness :
  exclusive twoMeshWorld /\ exclusive (snd (startAnimation twoMeshWorld)).
Proof.
  split; [exact twoMeshWorld_exclusive |].
  exact (startAnimation_exclusive twoMeshWorld twoMeshWorld_exclusive).
Defined.

Lemma spawn_from_empty (P : World -> Particle -> Prop) (w : World)
    (p : Particle) :
  (forall (w0 : World) (q : Particle), P w0 q -> P (snd (spawnOne w0)) q) ->
  (forall w0 : World, P (snd (spawnOne w0)) (fst (createParticle w0))) ->
  particles w = [] ->
  p ∈ particles (snd (startAnimation w)) ->
  P (snd (startAnimation w)) p.
Proof.
  intros Hkeep Hnew He. rewrite startAnimation_spawn. intros Hin.
  assert (Hw : Forall (P w) (particles w)) by (rewrite He; constructor).
  pose proof (spawn_Forall P NUM_PARTICLES w Hkeep Hnew Hw) as H.
  rewrite Forall_forall in H. exact (H p Hin).
Qed.

(** X21: after [startAnimation] on an empty array, the mesh of every
    particle is a child of the scene. *)
Theorem startAnimation_meshes_in_scene (w : World) (p : Particle) :
  particles w = [] ->
  p ∈ particles (snd (startAnimation w)) ->
  geometry p ∈ scene (snd (startAnimation w)).
Proof.
  apply (spawn_from_empty (fun w0 q => geometry q ∈ scene w0)).
  - intros w0 q Hq. rewrite spawnOne_world. cbn [scene].
    apply elem_of_app. left. exact Hq.
  - intros w0. rewrite spawnOne_world. cbn [scene].
    apply elem_of_app. right. apply list_elem_of_singleton. reflexivity.
Qed.

Lemma startAnimation_meshes_in_scene_witness :
  particles (worldWith meanDraws) = [] /\
  fst (createParticle (worldWith meanDraws))
  ∈ particles (snd (startAnimation (worldWith meanDraws))) /\
  geometry (fst (createParticle (worldWith meanDraws)))
  ∈ scene (snd (startAnimation (worldWith meanDraws))).
Proof.
  assert (He : particles (worldWith meanDraws) = []) by reflexivity.
  pose proof (first_particle_spawned (worldWith meanDraws)) as Hin.
  split; [exact He | split; [exact Hin |]].
  exact (startAnimation_meshes_in_scene (worldWith meanDraws) _ He Hin).
Defined.

(** After the start-up loop the mesh of every particle has one scale for
    its three axes. *)
Lemma startAnimation_scales (w : World) (p : Particle) :
  particles w = [] ->
  p ∈ particles (snd (startAnimation w)) ->
  exists (o : Object3D) (s : number),
    objects (snd (startAnimation w)) !! geometry p = Some o /\
    scale o = mkVector3 s s s.
Proof.
  apply (spawn_from_empty
           (fun w0 q => exists (o : Object3D) (s : number),
                objects w0 !! geometry q = Some o /\
                scale o = mkVector3 s s s)).
  - intros w0 q (o & s & Ho & Hs). exists o, s. split; [|exact Hs].
    rewrite spawnOne_world. cbn [objects].
    apply lookup_app_l_Some, Ho.
  - intros w0. rewrite spawnOne_world. cbn [objects]. eexists _, _. split.
    + change (geometry (fst (createParticle w0))) with (length (objects w0)).
      apply list_lookup_middle. reflexivity.
    + reflexivity.
Qed.

(** X22: after [startAnimation] on an empty array and a frame at time [t],
    every particle has its mesh at the coordinates computed for it at [t],
    scaled alike on the three axes. *)
Theorem first_frame_positions (w : World) (p : Particle) (t : R) :
  particles w = [] ->
  p ∈ particles (snd (startAnimation w)) ->
  exists s : number,
    objects (draw t (snd (startAnimation w))) !! geometry p
    = Some (mkObject3D (Kinematics.coordinates p t) (mkVector3 s s s)).
Proof.
  intros He Hin.
  destruct (startAnimation_scales w p He Hin) as (o & s & Ho & Hs).
  exists s. rewrite <- Hs, draw_moveAll.
  apply moveAll_position; [|exact Hin | exact Ho].
  rewrite startAnimation_spawn. apply spawn_exclusive, empty_exclusive, He.
Qed.

Lemma first_frame_positions_witness :
  particles (worldWith meanDraws) = [] /\
  fst (createParticle (worldWith meanDraws))
  ∈ particles (snd (startAnimation (worldWith meanDraws))) /\
  exists s : number,
    objects (draw 1500 (snd (startAnimation (worldWith meanDraws))))
      !! geometry (fst (createParticle (worldWith meanDraws)))
    = Some (mkObject3D
              (Kinematics.coordinates
                 (fst (createParticle (worldWith meanDraws))) 1500)
              (mkVector3 s s s)).
Proof.
  assert (He : particles (worldWith meanDraws) = []) by reflexivity.
  pose proof (first_particle_spawned (worldWith meanDraws)) as Hin.
  split; [exact He | split; [exact Hin |]].
  exact (first_frame_positions (worldWith meanDraws) _ 1500 He Hin).
Defined.




(** ** The camera distance [getZFromWidth] *)

(** X24: the camera distance is inversely proportional to the width, 125 at
    the base width 1440: [getZFromWidth width = 180000 / width] for every
    width other than 0; at width 0 it is [+Infinity]. *)
Theorem getZFromWidth_inverse :
  getZFromWidth 0 = Infinity false /\
  getZFromWidth 1440 = Number (Fin 125) /\
  forall width : R,
    width <> 0 -> getZFromWidth width = Number (Fin (180000 / width)).
Proof.
  assert (H : forall width : R,
             width <> 0 ->
             getZFromWidth width = Number (Fin (180000 / width))).
  { intros width Hw. unfold getZFromWidth, xdiv.
    destruct (Req_dec_T (width / 1440) 0) as [E|N].
    - exfalso. apply Hw.
      rewrite (quotient_scale width 1440) by lra. rewrite E. lra.
    - f_equal. f_equal. field. exact Hw. }
  split; [|split; [|exact H]].
  - unfold getZFromWidth, xdiv.
    destruct (Req_dec_T (0 / 1440) 0) as [_|N]; [|exfalso; lra].
    destruct (Req_dec_T 125 0) as [E|_]; [lra|].
    destruct (Rlt_dec 125 0) as [L|_]; [lra | reflexivity].
  - rewrite H by lra. f_equal. f_equal. lra.
Qed.

Lemma getZFromWidth_inverse_witness :
  720 <> 0 /\ getZFromWidth 720 = Number (Fin (180000 / 720)).
Proof.
  assert (H : 720 <> 0) by lra.
  split; [exact H |].
  exact (proj2 (proj2 getZFromWidth_inverse) 720 H).
Defined.
